(** * halMessage: the messages that are passed between HAL modules

    A shallow embedding of [storm_control/hal4000/halLib/halMessage.py]:
    the registry of valid message types, the message classes
    ([HalMessageBase], [HalMessage], [SyncMessage]) and the two outcome
    containers ([HalMessageError], [HalMessageResponse]).

    Python objects that are mutated in place (the messages, the registry)
    live in an explicit store; every function of the source that touches
    them is a computation in a state-and-exception monad over that store.
    The two containers are never mutated after construction and are plain
    records. *)

From stdpp Require Import gmap strings list fin_maps pretty.

Local Open Scope Z_scope.

(** ** Python-side data *)

(** Exceptions that the code of this file can raise.  [HalException] is
    [halExceptions.HalException] with its message; [AttributeError] is what
    Python raises when [attr] is read from an object that does not have it
    (among them [None]).  [NoSuchObject] belongs to the model only: a method
    run through a reference that denotes no live message, which Python
    cannot express. *)
Inductive exn : Type :=
| HalException (msg : string)
| AttributeError (attr : string)
| NoSuchObject.

(** Payloads ([data]): a few immediate values, and [PyRef] for any other
    object (in general a dictionary or a Parameters object), known by its
    address only. *)
Inductive pyval : Type :=
| PyStr (s : string)
| PyInt (z : Z)
| PyBool (b : bool)
| PyRef (a : N).

(** The object given as [source].  The only attribute this file reads from
    it is [module_name]; [None] here says that the object has no such
    attribute. *)
Record pyobject : Type := PyObject { module_name : option string }.

(** A Python callable, by name. *)
Inductive callable : Type := Callable (name : string).

(** [",".join(l)]. *)
Fixpoint join (sep : string) (l : list string) : string :=
  match l with
  | [] => ""
  | x :: l' =>
      match l' with
      | [] => x
      | _ :: _ => x +:+ sep +:+ join sep l'
      end
  end.

(** ** The two outcome containers *)

Module HalMessageError.

Record t : Type := Build
  { message : string;
    m_exception : option exn;
    source : string }.

(** Keyword arguments of the constructor; [None] is an omitted keyword
    (for [m_exception] also an explicit [None], which Python cannot tell
    from an omitted one here). *)
Record kwds : Type := Kwds
  { kw_source : option string;
    kw_message : option string;
    kw_m_exception : option exn }.

Definition init (kw : kwds) : t :=
  {| message := default "" (kw_message kw);
     m_exception := kw_m_exception kw;
     source := default "" (kw_source kw) |}.

Definition getException (self : t) : option exn := m_exception self.

Definition hasException (self : t) : bool :=
  match m_exception self with
  | None => false
  | Some _ => true
  end.

End HalMessageError.

Module HalMessageResponse.

Record t : Type := Build
  { data : option pyval;
    source : string }.

Record kwds : Type := Kwds
  { kw_source : option string;
    kw_data : option pyval }.

Definition init (kw : kwds) : t :=
  {| data := kw_data kw;
     source := default "" (kw_source kw) |}.

Definition getData (self : t) : option pyval := data self.

End HalMessageResponse.

(** ** Message objects *)

Record HalMessageBase : Type := BuildBase
  { m_type : string;
    source : option pyobject }.

Record HalMessage : Type := BuildMessage
  { base :> HalMessageBase;
    data : option pyval;
    finalizer : option callable;
    level : Z;
    m_errors : list HalMessageError.t;
    responses : list HalMessageResponse.t;
    sync : bool;
    ref_count : Z }.

(** Keyword arguments of [HalMessage(...)]; [None] is an omitted keyword. *)
Record kwds : Type := Kwds
  { kw_m_type : option string;
    kw_source : option pyobject;
    kw_data : option pyval;
    kw_sync : option bool;
    kw_level : option Z;
    kw_finalizer : option callable }.

(** ** The store *)

(** What the outside world sees of a run: the lines given to
    [hdebug.logText] and the calls made to callables, in order. *)
Inductive event : Type :=
| LogText (line : string)
| Invoke (f : callable) (args : list pyval).

(** The store: the registry, the live message objects by address
    ([id(self)] is the address), the next address to hand out, and the
    trace. *)
Record world : Type := World
  { w_valid_messages : gmap string bool;
    heap : gmap N HalMessage;
    next_id : N;
    trace : list event }.

(** The dictionary literal the module starts with. *)
Definition valid_messages : gmap string bool :=
  <["add to ui" := true]>
  (<["close event" := true]>
  (<["configure1" := true]>
  (<["configure2" := true]>
  (<["current parameters" := true]>
  (<["module" := true]>
  (<["new directory" := true]>
  (<["new parameters file" := true]>
  (<["new shutters file" := true]>
  (<["start" := true]>
  (<["sync" := true]> ∅)))))))))).

Definition builtin_names : list string :=
  ["add to ui"; "close event"; "configure1"; "configure2";
   "current parameters"; "module"; "new directory"; "new parameters file";
   "new shutters file"; "start"; "sync"].

(** The state when the module has just been imported. *)
Definition init_world : world :=
  {| w_valid_messages := valid_messages; heap := ∅; next_id := 0%N; trace := [] |}.

(** ** State and exceptions *)

Inductive result (A : Type) : Type :=
| Ok (a : A)
| Raise (e : exn).
Arguments Ok {A} a.
Arguments Raise {A} e.

(** A computation runs in a store and leaves a store, also when it raises:
    what was done before the exception stays done. *)
Definition M (A : Type) : Type := world → result A * world.

Definition ret {A} (a : A) : M A := λ w, (Ok a, w).

Definition bind {A B} (c : M A) (k : A → M B) : M B :=
  λ w, match c w with
       | (Ok a, w') => k a w'
       | (Raise e, w') => (Raise e, w')
       end.

Definition raise {A} (e : exn) : M A := λ w, (Raise e, w).

Notation "'let!' x ':=' c 'in' k" := (bind c (λ x, k))
  (at level 10, x pattern, c at level 100, k at level 200).
Notation "c '>>' k" := (bind c (λ _, k))
  (at level 100, k at level 200, right associativity).

(** [try: c finally-on-error: h]: run [h] when [c] raises, then raise again. *)
Definition on_exception {A} (c : M A) (h : world → world) : M A :=
  λ w, match c w with
       | (Ok a, w') => (Ok a, w')
       | (Raise e, w') => (Raise e, h w')
       end.

Definition set_valid_messages (vm : gmap string bool) : M unit :=
  λ w, (Ok tt, {| w_valid_messages := vm; heap := heap w;
                  next_id := next_id w; trace := trace w |}).

Definition set_heap (h : gmap N HalMessage) (w : world) : world :=
  {| w_valid_messages := w_valid_messages w; heap := h;
     next_id := next_id w; trace := trace w |}.

Definition emit (e : event) : M unit :=
  λ w, (Ok tt, {| w_valid_messages := w_valid_messages w; heap := heap w;
                  next_id := next_id w; trace := trace w ++ [e] |}).

(** A fresh object: its address is handed out and never handed out again. *)
Definition alloc : M N :=
  λ w, (Ok (next_id w),
        {| w_valid_messages := w_valid_messages w; heap := heap w;
           next_id := N.succ (next_id w); trace := trace w |}).

(** All the attributes of [self] are assigned. *)
Definition store (self : N) (m : HalMessage) : M unit :=
  λ w, (Ok tt, set_heap (<[self := m]> (heap w)) w).

(** An object nothing refers to any more is reclaimed. *)
Definition reclaim (self : N) (w : world) : world :=
  set_heap (delete self (heap w)) w.

Definition deref (self : N) : M HalMessage :=
  λ w, match heap w !! self with
       | Some m => (Ok m, w)
       | None => (Raise NoSuchObject, w)
       end.

(** [self.f] *)
Definition attr {A} (f : HalMessage → A) (self : N) : M A :=
  let! m := deref self in ret (f m).

(** Modelled from the spec: [hdebug.logText] is not part of this file; the
    spec's diagnostic sink receives the event.  The line becomes the next
    entry of the trace. *)
Definition logText (line : string) : M unit := emit (LogText line).

(** Calling [f] with [args]: the body of the callable is the caller's code; the call is
    what this module does. *)
Definition invoke (f : callable) (args : list pyval) : M unit :=
  emit (Invoke f args).

(** ** The registry of message types *)

(** [name in d] *)
Definition contains (d : gmap string bool) (name : string) : bool :=
  match d !! name with
  | Some _ => true
  | None => false
  end.

(** [addMessage(name, check_exists = True)] *)
Definition addMessage (name : string) (check_exists : bool) : M unit :=
  λ w,
    if check_exists && contains (w_valid_messages w) name then
      raise (HalException ("Message " +:+ name +:+ " already exists!")) w
    else
      set_valid_messages (<[name := true]> (w_valid_messages w)) w.

(** ** HalMessageBase *)

Definition HalMessageBase_init (m_type : option string) (source : option pyobject)
  : HalMessageBase :=
  {| m_type := default "" m_type; source := source |}.

(** [src.module_name] *)
Definition get_module_name (src : option pyobject) : M string :=
  match src with
  | None => raise (AttributeError "module_name")
  | Some o =>
      match module_name o with
      | None => raise (AttributeError "module_name")
      | Some n => ret n
      end
  end.

Definition getSource (self : N) : M (option pyobject) := attr source self.

Definition getSourceName (self : N) : M string :=
  let! src := attr source self in get_module_name src.

Definition getType (self : N) : M string := attr m_type self.

(** ** HalMessage *)

Definition logEvent (self : N) (event_name : string) : M unit :=
  let! src := attr source self in
  let! name := get_module_name src in
  let! ty := attr m_type self in
  logText (join "," [event_name; pretty self; name; ty]).

Definition HalMessage_init (self : N) (kw : kwds) : M unit :=
  store self
    {| base := HalMessageBase_init (kw_m_type kw) (kw_source kw);
       data := kw_data kw;
       finalizer := kw_finalizer kw;
       level := default 1 (kw_level kw);
       m_errors := [];
       responses := [];
       sync := default false (kw_sync kw);
       ref_count := 0 |} >>
  let! lvl := attr level self in
  if lvl =? 1 then logEvent self "created" else ret tt.

(** [cls(...)]: a fresh object is made, [init] runs on it, and the caller
    gets the reference; when [init] raises the caller gets none and the
    object is gone. *)
Definition construct (init : N → M unit) : M N :=
  let! self := alloc in
  on_exception (init self >> ret self) (reclaim self).

Definition HalMessage_new (kw : kwds) : M N :=
  construct (λ self, HalMessage_init self kw).

Definition update (self : N) (f : HalMessage → HalMessage) : M unit :=
  let! m := deref self in store self (f m).

Definition addError (self : N) (hal_message_error : HalMessageError.t) : M unit :=
  update self (λ m,
    {| base := base m; data := data m; finalizer := finalizer m;
       level := level m;
       m_errors := m_errors m ++ [hal_message_error];
       responses := responses m; sync := sync m; ref_count := ref_count m |}).

Definition addResponse (self : N) (hal_message_response : HalMessageResponse.t)
  : M unit :=
  update self (λ m,
    {| base := base m; data := data m; finalizer := finalizer m;
       level := level m; m_errors := m_errors m;
       responses := responses m ++ [hal_message_response];
       sync := sync m; ref_count := ref_count m |}).

Definition finalize (self : N) : M unit :=
  let! lvl := attr level self in
  (if lvl =? 1 then logEvent self "destroyed" else ret tt) >>
  let! fin := attr finalizer self in
  match fin with
  | Some f => invoke f []
  | None => ret tt
  end.

Definition getData (self : N) : M (option pyval) := attr data self.

Definition getErrors (self : N) : M (list HalMessageError.t) := attr m_errors self.

Definition getResponses (self : N) : M (list HalMessageResponse.t) :=
  attr responses self.

Definition hasErrors (self : N) : M bool :=
  let! l := attr m_errors self in ret (0 <? Z.of_nat (length l)).

Definition hasResponses (self : N) : M bool :=
  let! l := attr responses self in ret (0 <? Z.of_nat (length l)).

(** [self.ref_count = z].  The class has no method for its reference
    count: the code that delivers messages assigns the attribute. *)
Definition set_ref_count (self : N) (z : Z) : M unit :=
  update self (λ m,
    {| base := base m; data := data m; finalizer := finalizer m;
       level := level m; m_errors := m_errors m; responses := responses m;
       sync := sync m; ref_count := z |}).

(** ** SyncMessage *)

Definition SyncMessage_init (self : N) (source : option pyobject) : M unit :=
  let kwds :=
    {| kw_m_type := Some "sync"; kw_source := source; kw_sync := Some true;
       kw_data := None; kw_level := None; kw_finalizer := None |} in
  HalMessage_init self kwds.

Definition SyncMessage_new (source : option pyobject) : M N :=
  construct (λ self, SyncMessage_init self source).

(** ** The module as a state machine *)

(** What a client of the module can do to the store. *)
Inductive call : Type :=
| Call_addMessage (name : string) (check_exists : bool)
| Call_HalMessage (kw : kwds)
| Call_SyncMessage (source : option pyobject)
| Call_addError (self : N) (e : HalMessageError.t)
| Call_addResponse (self : N) (r : HalMessageResponse.t)
| Call_finalize (self : N)
| Call_getSourceName (self : N)
| Call_hasErrors (self : N)
| Call_hasResponses (self : N)
| Call_set_ref_count (self : N) (z : Z).

(** The store after a call, whether it returned or raised. *)
Definition exec (c : call) (w : world) : world :=
  match c with
  | Call_addMessage name check_exists => snd (addMessage name check_exists w)
  | Call_HalMessage kw => snd (HalMessage_new kw w)
  | Call_SyncMessage source => snd (SyncMessage_new source w)
  | Call_addError self e => snd (addError self e w)
  | Call_addResponse self r => snd (addResponse self r w)
  | Call_finalize self => snd (finalize self w)
  | Call_getSourceName self => snd (getSourceName self w)
  | Call_hasErrors self => snd (hasErrors self w)
  | Call_hasResponses self => snd (hasResponses self w)
  | Call_set_ref_count self z => snd (set_ref_count self z w)
  end.

Definition run (cs : list call) (w : world) : world :=
  fold_left (λ w c, exec c w) cs w.

(** The stores a program can be in: those that calls lead to from the
    state at import. *)
Definition reachable (w : world) : Prop := ∃ cs, w = run cs init_world.

(** ** Vocabulary of the statements *)

(** The module name a source gives, if it gives one. *)
Definition source_name (src : option pyobject) : option string :=
  match src with
  | None => None
  | Some o => module_name o
  end.

(** The line that [logEvent] hands to the log. *)
Definition lifecycle_event (event_name : string) (self : N) (name : string)
    (m : HalMessage) : event :=
  LogText (join "," [event_name; pretty self; name; m_type m]).

(** A message whose life cycle can be logged: at level 1 its source gives a
    module name. *)
Definition loggable (m : HalMessage) : Prop :=
  level m = 1 → is_Some (source_name (source m)).

Definition heap_ok (w : world) : Prop :=
  ∀ a m, heap w !! a = Some m → loggable m.

Definition with_trace (w : world) (t : list event) : world :=
  {| w_valid_messages := w_valid_messages w; heap := heap w;
     next_id := next_id w; trace := t |}.

(** The store once an address has been handed out. *)
Definition bump (w : world) : world :=
  {| w_valid_messages := w_valid_messages w; heap := heap w;
     next_id := N.succ (next_id w); trace := trace w |}.

(** The message that the constructor builds from [kw]. *)
Definition built (kw : kwds) : HalMessage :=
  {| base := {| m_type := default "" (kw_m_type kw); source := kw_source kw |};
     data := kw_data kw;
     finalizer := kw_finalizer kw;
     level := default 1 (kw_level kw);
     m_errors := [];
     responses := [];
     sync := default false (kw_sync kw);
     ref_count := 0 |}.

(** The keywords that [SyncMessage] passes on. *)
Definition sync_kwds (source : option pyobject) : kwds :=
  {| kw_m_type := Some "sync"; kw_source := source; kw_sync := Some true;
     kw_data := None; kw_level := None; kw_finalizer := None |}.

(** [keeps proj c]: running [c] does not change the part [proj] of the
    store, whether [c] returns or raises. *)
Definition keeps {A X} (proj : world → X) (c : M A) : Prop :=
  ∀ w, proj (snd (c w)) = proj w.

Create HintDb keeps.

(** The calls that [finalize] makes to the completion callback. *)
Definition callback_events (m : HalMessage) : list event :=
  match finalizer m with
  | Some f => [Invoke f []]
  | None => []
  end.

(** Everything of a message but its two outcome sequences. *)
Definition envelope (m : HalMessage) :=
  (base m, data m, finalizer m, level m, sync m, ref_count m).

(** ** Vocabulary of the further properties *)

(** What a recipient attaches to a message: an error or a response. *)
Definition outcome : Type := HalMessageError.t + HalMessageResponse.t.

(** The call that attaches [o] to the message at [self]. *)
Definition attach (self : N) (o : outcome) : call :=
  match o with
  | inl e => Call_addError self e
  | inr r => Call_addResponse self r
  end.

Definition errors_of (os : list outcome) : list HalMessageError.t :=
  omap (λ o, match o with inl e => Some e | inr _ => None end) os.

Definition responses_of (os : list outcome) : list HalMessageResponse.t :=
  omap (λ o, match o with inl _ => None | inr r => Some r end) os.

(** Live messages have addresses that were handed out. *)
Definition fresh_ok (w : world) : Prop :=
  ∀ a, is_Some (heap w !! a) → (a < next_id w)%N.

(** [m'] is a later state of the message [m]: what the constructor set is
    as it was, and the two outcome sequences have only been added to. *)
Definition evolves (m m' : HalMessage) : Prop :=
  base m' = base m ∧ data m' = data m ∧ finalizer m' = finalizer m
  ∧ level m' = level m ∧ sync m' = sync m
  ∧ (∃ es, m_errors m' = m_errors m ++ es)
  ∧ (∃ rs, responses m' = responses m ++ rs).

(** The calls that assign the reference count. *)
Definition counts (c : call) : bool :=
  match c with
  | Call_set_ref_count _ _ => true
  | _ => false
  end.

(** The calls that can add to the trace: the constructors and [finalize]. *)
Definition lifecycle (c : call) : bool :=
  match c with
  | Call_HalMessage _ | Call_SyncMessage _ | Call_finalize _ => true
  | _ => false
  end.

(** Every registered name is registered with [True]. *)
Definition all_true (vm : gmap string bool) : Prop :=
  ∀ name v, vm !! name = Some v → v = true.

(** What [finalize] adds to the trace for the message [m] at [self]. *)
Definition finalize_events (self : N) (m : HalMessage) : list event :=
  (if level m =? 1 then
     match source_name (source m) with
     | Some name => [lifecycle_event "destroyed" self name m]
     | None => []
     end
   else [])
  ++ callback_events m.

(** ** Sample values *)

Definition film : pyobject := PyObject (Some "film").

Definition kw_parameters : kwds :=
  {| kw_m_type := Some "new parameters file"; kw_source := Some film;
     kw_data := Some (PyRef 7); kw_sync := None; kw_level := None;
     kw_finalizer := Some (Callable "done") |}.

Definition disk_full : HalMessageError.t :=
  HalMessageError.init
    (HalMessageError.Kwds (Some "film") (Some "disk full") None).

Definition kw_no_source : kwds :=
  {| kw_m_type := Some "start"; kw_source := None; kw_data := None;
     kw_sync := None; kw_level := None; kw_finalizer := None |}.

Definition kw_level2 : kwds :=
  {| kw_m_type := None; kw_source := None; kw_data := None;
     kw_sync := None; kw_level := Some 2; kw_finalizer := None |}.

Definition kw_source_only : kwds :=
  {| kw_m_type := None; kw_source := Some film; kw_data := None;
     kw_sync := None; kw_level := None; kw_finalizer := None |}.

Definition focus_locked : HalMessageResponse.t :=
  HalMessageResponse.init
    (HalMessageResponse.Kwds (Some "focus") (Some (PyBool true))).

Definition stage_moved : HalMessageResponse.t :=
  HalMessageResponse.init
    (HalMessageResponse.Kwds (Some "stage") (Some (PyInt 3))).

(** The store after a message was sent and three recipients answered. *)
Definition world_answered : world :=
  run [Call_HalMessage kw_parameters;
       Call_addResponse 0%N focus_locked;
       Call_addError 0%N disk_full;
       Call_addResponse 0%N stage_moved] init_world.

(** ** Running computations *)

Section Running.
Context {A B : Type}.
Implicit Types (c : M A) (k : A → M B) (w : world).

Lemma bind_ok c k w a w' : c w = (Ok a, w') → bind c k w = k a w'.
Proof. unfold bind. intros ->. reflexivity. Qed.

Lemma bind_raise c k w e w' :
  c w = (Raise e, w') → bind c k w = (Raise e, w').
Proof. unfold bind. intros ->. reflexivity. Qed.
End Running.

Lemma attr_ok {A} (f : HalMessage → A) self w m :
  heap w !! self = Some m → attr f self w = (Ok (f m), w).
Proof. intros H. unfold attr, deref, bind, ret. rewrite H. reflexivity. Qed.

Lemma attr_missing {A} (f : HalMessage → A) self w :
  heap w !! self = None → attr f self w = (Raise NoSuchObject, w).
Proof. intros H. unfold attr, deref, bind, ret. rewrite H. reflexivity. Qed.

Lemma get_module_name_ok src n w :
  source_name src = Some n → get_module_name src w = (Ok n, w).
Proof. destruct src as [[[?|]]|]; simpl; intros [=]; subst; reflexivity. Qed.

Lemma get_module_name_raise src w :
  source_name src = None →
  get_module_name src w = (Raise (AttributeError "module_name"), w).
Proof. destruct src as [[[?|]]|]; simpl; intros [=]; reflexivity. Qed.

Lemma logEvent_ok self event_name w (m : HalMessage) n :
  heap w !! self = Some m →
  source_name (source m) = Some n →
  logEvent self event_name w =
    (Ok tt, with_trace w (trace w ++ [lifecycle_event event_name self n m])).
Proof.
  intros Hm Hn. unfold logEvent.
  rewrite (bind_ok _ _ _ _ _ (attr_ok source _ _ _ Hm)).
  rewrite (bind_ok _ _ _ _ _ (get_module_name_ok _ _ _ Hn)).
  rewrite (bind_ok _ _ _ _ _ (attr_ok m_type _ _ _ Hm)).
  reflexivity.
Qed.

Lemma logEvent_raise self event_name w (m : HalMessage) :
  heap w !! self = Some m →
  source_name (source m) = None →
  logEvent self event_name w = (Raise (AttributeError "module_name"), w).
Proof.
  intros Hm Hn. unfold logEvent.
  rewrite (bind_ok _ _ _ _ _ (attr_ok source _ _ _ Hm)).
  rewrite (bind_raise _ _ _ _ _ (get_module_name_raise _ _ Hn)).
  reflexivity.
Qed.

Lemma logEvent_missing self event_name w :
  heap w !! self = None → logEvent self event_name w = (Raise NoSuchObject, w).
Proof.
  intros Hm. unfold logEvent.
  rewrite (bind_raise _ _ _ _ _ (attr_missing source _ _ Hm)). reflexivity.
Qed.

(** ** Running the constructors *)

Lemma HalMessage_init_run self kw w :
  HalMessage_init self kw w =
    let w1 := set_heap (<[self := built kw]> (heap w)) w in
    if level (built kw) =? 1 then
      match source_name (kw_source kw) with
      | Some n =>
          (Ok tt,
           with_trace w1 (trace w ++ [lifecycle_event "created" self n (built kw)]))
      | None => (Raise (AttributeError "module_name"), w1)
      end
    else (Ok tt, w1).
Proof.
  unfold HalMessage_init.
  erewrite bind_ok by reflexivity.
  set (w1 := set_heap _ w).
  assert (Hm : heap w1 !! self = Some (built kw)) by apply lookup_insert_eq.
  rewrite (bind_ok _ _ _ _ _ (attr_ok level _ _ _ Hm)). cbv zeta.
  destruct (level (built kw) =? 1); [|reflexivity].
  destruct (source_name (kw_source kw)) as [n|] eqn:Hn.
  - apply (logEvent_ok _ _ _ _ _ Hm Hn).
  - apply (logEvent_raise _ _ _ _ Hm Hn).
Qed.

Lemma construct_run (init : N → M unit) w :
  construct init w =
    match init (next_id w) (bump w) with
    | (Ok _, w') => (Ok (next_id w), w')
    | (Raise e, w') => (Raise e, reclaim (next_id w) w')
    end.
Proof.
  unfold construct, on_exception, alloc, bind, ret, bump. simpl.
  destruct (init _ _) as [[[]|e] w']; reflexivity.
Qed.

Lemma HalMessage_new_run kw w :
  HalMessage_new kw w =
    let self := next_id w in
    let w1 := set_heap (<[self := built kw]> (heap w)) (bump w) in
    if level (built kw) =? 1 then
      match source_name (kw_source kw) with
      | Some n =>
          (Ok self,
           with_trace w1 (trace w ++ [lifecycle_event "created" self n (built kw)]))
      | None =>
          (Raise (AttributeError "module_name"),
           set_heap (delete self (heap w)) (bump w))
      end
    else (Ok self, w1).
Proof.
  unfold HalMessage_new. rewrite construct_run, HalMessage_init_run. cbv zeta.
  destruct (level (built kw) =? 1); [|reflexivity].
  destruct (source_name (kw_source kw)); [reflexivity|].
  unfold reclaim, set_heap, bump. simpl. rewrite delete_insert_eq. reflexivity.
Qed.

Lemma SyncMessage_new_eq source :
  SyncMessage_new source = HalMessage_new (sync_kwds source).
Proof. reflexivity. Qed.

(** ** What a computation leaves alone *)

Section Keeps.
Context {X : Type} (proj : world → X).

Lemma keeps_ret {A} (a : A) : keeps proj (ret a).
Proof. intros w. reflexivity. Qed.

Lemma keeps_raise {A} e : keeps proj (raise (A := A) e).
Proof. intros w. reflexivity. Qed.

Lemma keeps_bind {A B} (c : M A) (k : A → M B) :
  keeps proj c → (∀ a, keeps proj (k a)) → keeps proj (bind c k).
Proof.
  intros Hc Hk w. unfold bind. specialize (Hc w).
  destruct (c w) as [[a|e] w']; simpl in *; [|assumption].
  rewrite Hk. assumption.
Qed.

Lemma keeps_deref self : keeps proj (deref self).
Proof. intros w. unfold deref. destruct (heap w !! self); reflexivity. Qed.

Lemma keeps_attr {A} (f : HalMessage → A) self : keeps proj (attr f self).
Proof.
  unfold attr. apply keeps_bind; [apply keeps_deref|]. intros m. apply keeps_ret.
Qed.

Lemma keeps_get_module_name src : keeps proj (get_module_name src).
Proof. intros w. destruct src as [[[?|]]|]; reflexivity. Qed.

Lemma keeps_if {A} (b : bool) (c1 c2 : M A) :
  keeps proj c1 → keeps proj c2 → keeps proj (if b then c1 else c2).
Proof. destruct b; auto. Qed.
End Keeps.

#[local] Hint Resolve keeps_ret keeps_raise keeps_bind keeps_deref keeps_attr
  keeps_get_module_name keeps_if : keeps.

Lemma keeps_heap_emit e : keeps heap (emit e).
Proof. intros w. reflexivity. Qed.

Lemma keeps_registry_emit e : keeps w_valid_messages (emit e).
Proof. intros w. reflexivity. Qed.

Lemma keeps_next_id_emit e : keeps next_id (emit e).
Proof. intros w. reflexivity. Qed.

Lemma keeps_registry_store self m : keeps w_valid_messages (store self m).
Proof. intros w. reflexivity. Qed.

Lemma keeps_trace_store self m : keeps trace (store self m).
Proof. intros w. reflexivity. Qed.

Lemma keeps_next_id_store self m : keeps next_id (store self m).
Proof. intros w. reflexivity. Qed.

#[local] Hint Resolve keeps_heap_emit keeps_registry_emit keeps_next_id_emit
  keeps_registry_store keeps_trace_store keeps_next_id_store : keeps.

#[local] Hint Extern 1 (keeps _ (logText _)) => unfold logText : keeps.
#[local] Hint Extern 1 (keeps _ (invoke _ _)) => unfold invoke : keeps.
#[local] Hint Extern 1 (keeps _ (match ?x with _ => _ end)) => destruct x : keeps.

Lemma keeps_logEvent {X} (proj : world → X) self event_name :
  (∀ e, keeps proj (emit e)) → keeps proj (logEvent self event_name).
Proof. intros He. unfold logEvent, logText. eauto 10 with keeps. Qed.

Lemma keeps_finalize {X} (proj : world → X) self :
  (∀ e, keeps proj (emit e)) → keeps proj (finalize self).
Proof.
  intros He. unfold finalize, invoke.
  apply keeps_bind; [auto with keeps|]. intros lvl.
  apply keeps_bind; [apply keeps_if; auto using keeps_logEvent with keeps|].
  intros _. apply keeps_bind; [auto with keeps|].
  intros [f|]; auto with keeps.
Qed.

Lemma keeps_update {X} (proj : world → X) self f :
  (∀ a m, keeps proj (store a m)) → keeps proj (update self f).
Proof. intros Hs. unfold update. auto with keeps. Qed.

Lemma keeps_getSourceName {X} (proj : world → X) self :
  keeps proj (getSourceName self).
Proof. unfold getSourceName. auto with keeps. Qed.

Lemma keeps_hasErrors {X} (proj : world → X) self : keeps proj (hasErrors self).
Proof. unfold hasErrors. auto with keeps. Qed.

Lemma keeps_hasResponses {X} (proj : world → X) self :
  keeps proj (hasResponses self).
Proof. unfold hasResponses. auto with keeps. Qed.

Lemma keeps_registry_HalMessage_new kw : keeps w_valid_messages (HalMessage_new kw).
Proof.
  intros w. rewrite HalMessage_new_run. cbv zeta.
  destruct (level (built kw) =? 1); [|reflexivity].
  destruct (source_name (kw_source kw)); reflexivity.
Qed.

(** ** The registry under calls *)

Lemma addMessage_registry name check_exists w :
  w_valid_messages (snd (addMessage name check_exists w)) = w_valid_messages w
  ∨ w_valid_messages (snd (addMessage name check_exists w))
    = <[name := true]> (w_valid_messages w).
Proof.
  unfold addMessage.
  destruct (check_exists && contains (w_valid_messages w) name); simpl; auto.
Qed.

Lemma exec_registry c w :
  w_valid_messages (exec c w) = w_valid_messages w
  ∨ ∃ name, w_valid_messages (exec c w) = <[name := true]> (w_valid_messages w).
Proof.
  destruct c; simpl.
  - destruct (addMessage_registry name check_exists w); eauto.
  - left. apply keeps_registry_HalMessage_new.
  - left. rewrite SyncMessage_new_eq. apply keeps_registry_HalMessage_new.
  - left. apply keeps_update. auto with keeps.
  - left. apply keeps_update. auto with keeps.
  - left. apply keeps_finalize. auto with keeps.
  - left. apply keeps_getSourceName.
  - left. apply keeps_hasErrors.
  - left. apply keeps_hasResponses.
  - left. apply keeps_update. auto with keeps.
Qed.

Lemma exec_registry_grows c w :
  dom (w_valid_messages w) ⊆ dom (w_valid_messages (exec c w)).
Proof.
  destruct (exec_registry c w) as [->|[name ->]]; [done|].
  apply dom_insert_subseteq.
Qed.

Lemma run_registry_grows cs w :
  dom (w_valid_messages w) ⊆ dom (w_valid_messages (run cs w)).
Proof.
  revert w. induction cs as [|c cs IH]; intros w; simpl; [done|].
  etrans; [apply (exec_registry_grows c)|apply IH].
Qed.

Lemma run_app cs1 cs2 w : run (cs1 ++ cs2) w = run cs2 (run cs1 w).
Proof. apply fold_left_app. Qed.

Lemma builtin_names_registered name :
  name ∈ builtin_names → name ∈ dom valid_messages.
Proof.
  unfold builtin_names, valid_messages. rewrite !dom_insert_L. set_solver.
Qed.

(** ** Messages under calls *)

Lemma loggable_built kw :
  level (built kw) ≠ 1 ∨ is_Some (source_name (kw_source kw)) →
  loggable (built kw).
Proof. intros [H|H] Hl; [contradiction|exact H]. Qed.

Lemma heap_ok_insert w a m :
  heap_ok w → loggable m → heap_ok (set_heap (<[a := m]> (heap w)) w).
Proof.
  intros Hw Hm b m'. simpl. rewrite lookup_insert. case_decide.
  - intros [= <-]. exact Hm.
  - apply Hw.
Qed.

Lemma heap_ok_same w w' : heap w' = heap w → heap_ok w → heap_ok w'.
Proof. unfold heap_ok. intros ->. auto. Qed.

Lemma heap_ok_HalMessage_new kw w :
  heap_ok w → heap_ok (snd (HalMessage_new kw w)).
Proof.
  intros Hw. rewrite HalMessage_new_run. cbv zeta.
  destruct (level (built kw) =? 1) eqn:Hl.
  - destruct (source_name (kw_source kw)) as [n|] eqn:Hn; simpl.
    + intros b m'. simpl. rewrite lookup_insert. case_decide.
      * intros [= <-]. apply loggable_built. right. rewrite Hn. eauto.
      * apply Hw.
    + intros b m'. simpl. rewrite lookup_delete. case_decide; [done|apply Hw].
  - simpl. intros b m'. simpl. rewrite lookup_insert. case_decide.
    + intros [= <-]. apply loggable_built. left. lia.
    + apply Hw.
Qed.

Lemma heap_ok_update self f w :
  (∀ m, loggable m → loggable (f m)) →
  heap_ok w → heap_ok (snd (update self f w)).
Proof.
  intros Hf Hw. unfold update, bind, deref, store.
  destruct (heap w !! self) as [m|] eqn:Hm; simpl; [|exact Hw].
  apply heap_ok_insert; [exact Hw|]. apply Hf. exact (Hw _ _ Hm).
Qed.

Lemma heap_ok_exec c w : heap_ok w → heap_ok (exec c w).
Proof.
  intros Hw. destruct c; simpl.
  - apply (heap_ok_same w); [|exact Hw]. unfold addMessage.
    destruct (_ && _); reflexivity.
  - apply heap_ok_HalMessage_new, Hw.
  - rewrite SyncMessage_new_eq. apply heap_ok_HalMessage_new, Hw.
  - apply heap_ok_update; [|exact Hw]. intros m Hm. exact Hm.
  - apply heap_ok_update; [|exact Hw]. intros m Hm. exact Hm.
  - apply (heap_ok_same w); [|exact Hw]. apply keeps_finalize. auto with keeps.
  - apply (heap_ok_same w); [|exact Hw]. apply keeps_getSourceName.
  - apply (heap_ok_same w); [|exact Hw]. apply keeps_hasErrors.
  - apply (heap_ok_same w); [|exact Hw]. apply keeps_hasResponses.
  - apply heap_ok_update; [|exact Hw]. intros m Hm. exact Hm.
Qed.

Lemma heap_ok_run cs w : heap_ok w → heap_ok (run cs w).
Proof.
  revert w. induction cs as [|c cs IH]; intros w Hw; simpl; [exact Hw|].
  apply IH, heap_ok_exec, Hw.
Qed.

Lemma heap_ok_init : heap_ok init_world.
Proof. intros a m. simpl. rewrite lookup_empty. discriminate. Qed.

Lemma reachable_heap_ok w : reachable w → heap_ok w.
Proof. intros [cs ->]. apply heap_ok_run, heap_ok_init. Qed.

(** ** Running the methods *)

Lemma with_trace_id w : with_trace w (trace w) = w.
Proof. destruct w. reflexivity. Qed.

Lemma finalize_callback self w (m : HalMessage) :
  heap w !! self = Some m →
  (let! fin := attr finalizer self in
   match fin with
   | Some f => invoke f []
   | None => ret tt
   end) w = (Ok tt, with_trace w (trace w ++ callback_events m)).
Proof.
  intros Hm. rewrite (bind_ok _ _ _ _ _ (attr_ok finalizer _ _ _ Hm)).
  unfold callback_events. destruct (finalizer m); [reflexivity|].
  rewrite app_nil_r, with_trace_id. reflexivity.
Qed.

Lemma finalize_run self w (m : HalMessage) :
  heap w !! self = Some m →
  finalize self w =
    if level m =? 1 then
      match source_name (source m) with
      | Some n =>
          (Ok tt,
           with_trace w
             (trace w ++ [lifecycle_event "destroyed" self n m] ++ callback_events m))
      | None => (Raise (AttributeError "module_name"), w)
      end
    else (Ok tt, with_trace w (trace w ++ callback_events m)).
Proof.
  intros Hm. unfold finalize.
  rewrite (bind_ok _ _ _ _ _ (attr_ok level _ _ _ Hm)).
  destruct (level m =? 1).
  - destruct (source_name (source m)) as [n|] eqn:Hn.
    + rewrite (bind_ok _ _ _ _ _ (logEvent_ok _ _ _ _ _ Hm Hn)).
      rewrite (finalize_callback _ _ m) by exact Hm.
      simpl. rewrite <- app_assoc. reflexivity.
    + rewrite (bind_raise _ _ _ _ _ (logEvent_raise _ _ _ _ Hm Hn)). reflexivity.
  - erewrite bind_ok by reflexivity. apply finalize_callback, Hm.
Qed.

Lemma finalize_missing self w :
  heap w !! self = None → finalize self w = (Raise NoSuchObject, w).
Proof.
  intros Hm. unfold finalize.
  rewrite (bind_raise _ _ _ _ _ (attr_missing level _ _ Hm)). reflexivity.
Qed.

Lemma update_run self f w m :
  heap w !! self = Some m →
  update self f w = (Ok tt, set_heap (<[self := f m]> (heap w)) w).
Proof. intros Hm. unfold update, bind, deref, store. rewrite Hm. reflexivity. Qed.

(** [finalize] does not look at the reference count: whatever was assigned
    to it, the call returns the same and adds the same events. *)
Lemma finalize_ignores_ref_count self z w (m : HalMessage) :
  heap w !! self = Some m →
  fst (finalize self (snd (set_ref_count self z w))) = fst (finalize self w)
  ∧ trace (snd (finalize self (snd (set_ref_count self z w))))
    = trace (snd (finalize self w)).
Proof.
  intros Hm. unfold set_ref_count. rewrite (update_run _ _ _ _ Hm). simpl.
  erewrite finalize_run by apply lookup_insert_eq.
  rewrite (finalize_run _ _ _ Hm). simpl.
  destruct (level m =? 1); [|split; reflexivity].
  destruct (source_name (source m)); split; reflexivity.
Qed.

(** ** Properties of the specification *)

(** C1: for every message that the module has built, one call of [finalize]
    returns normally and does, in this order and nothing else: when the level
    is 1 it logs the "destroyed" event of the message; when a completion
    callback was given it calls it once, with no arguments, and when none was
    given it calls nothing. *)
Theorem finalize_effects w self (m : HalMessage) :
  reachable w →
  heap w !! self = Some m →
  ∃ logged called,
    finalize self w = (Ok tt, with_trace w (trace w ++ logged ++ called))
    ∧ (level m = 1 →
       ∃ name, source_name (source m) = Some name
               ∧ logged = [lifecycle_event "destroyed" self name m])
    ∧ (level m ≠ 1 → logged = [])
    ∧ (∀ f, finalizer m = Some f → called = [Invoke f []])
    ∧ (finalizer m = None → called = []).
Proof.
  intros Hw Hm.
  pose proof (reachable_heap_ok _ Hw _ _ Hm) as Hlog.
  rewrite (finalize_run _ _ _ Hm).
  destruct (level m =? 1) eqn:Hl.
  - apply Z.eqb_eq in Hl. destruct (Hlog Hl) as [n Hn]. rewrite Hn.
    exists [lifecycle_event "destroyed" self n m], (callback_events m).
    unfold callback_events. repeat split.
    + intros _. eauto.
    + intros Hne. contradiction.
    + intros f ->. reflexivity.
    + intros ->. reflexivity.
  - apply Z.eqb_neq in Hl.
    exists [], (callback_events m).
    unfold callback_events. repeat split.
    + intros He. contradiction.
    + intros f ->. reflexivity.
    + intros ->. reflexivity.
Qed.

Lemma finalize_effects_witness :
  ∃ logged called,
    finalize 0%N (run [Call_HalMessage kw_parameters] init_world)
    = (Ok tt,
       with_trace (run [Call_HalMessage kw_parameters] init_world)
         (trace (run [Call_HalMessage kw_parameters] init_world)
          ++ logged ++ called))
    ∧ logged = [LogText "destroyed,0,film,new parameters file"]
    ∧ called = [Invoke (Callable "done") []].
Proof.
  destruct (finalize_effects (run [Call_HalMessage kw_parameters] init_world)
              0%N (built kw_parameters))
    as (logged & called & Hrun & Hlog & _ & Hcall & _).
  - exists [Call_HalMessage kw_parameters]. reflexivity.
  - vm_compute. reflexivity.
  - exists logged, called. split; [exact Hrun|]. split.
    + destruct (Hlog eq_refl) as (name & Hname & ->).
      injection Hname as <-. reflexivity.
    + apply (Hcall (Callable "done")). reflexivity.
Defined.

(** C2: [addMessage name true] on a name that is registered raises
    [HalException] (the duplicate-type error) and changes nothing;
    [addMessage name false] on such a name returns normally and the registry
    has the same names as before, [name] among them, and as many; on a name
    that is not registered [addMessage] returns normally, whatever the flag,
    and the names are the old ones and [name]. *)
Theorem addMessage_duplicates name w :
  (name ∈ dom (w_valid_messages w) →
   addMessage name true w
   = (Raise (HalException ("Message " +:+ name +:+ " already exists!")), w)
   ∧ ∃ w', addMessage name false w = (Ok tt, w')
           ∧ dom (w_valid_messages w') = dom (w_valid_messages w)
           ∧ name ∈ dom (w_valid_messages w')
           ∧ size (w_valid_messages w') = size (w_valid_messages w))
  ∧ (name ∉ dom (w_valid_messages w) →
     ∀ check_exists,
     ∃ w', addMessage name check_exists w = (Ok tt, w')
           ∧ dom (w_valid_messages w') = {[name]} ∪ dom (w_valid_messages w)).
Proof.
  split.
  - intros Hin. pose proof Hin as [v Hv]%elem_of_dom.
    unfold addMessage, contains. rewrite Hv. simpl. split; [reflexivity|].
    eexists. split; [reflexivity|]. simpl. split; [|split].
    + apply dom_insert_lookup_L. eauto.
    + rewrite dom_insert_L. set_solver.
    + apply map_size_insert_Some. eauto.
  - intros Hnin check_exists. apply not_elem_of_dom in Hnin.
    unfold addMessage, contains. rewrite Hnin, andb_false_r.
    eexists. split; [reflexivity|]. simpl. apply dom_insert_L.
Qed.

Lemma addMessage_duplicates_witness :
  addMessage "sync" true init_world
  = (Raise (HalException "Message sync already exists!"), init_world)
  ∧ (∃ w', addMessage "sync" false init_world = (Ok tt, w')
           ∧ size (w_valid_messages w') = 11%nat)
  ∧ (∃ w', addMessage "film" true init_world = (Ok tt, w')
           ∧ "film" ∈ dom (w_valid_messages w')).
Proof.
  destruct (addMessage_duplicates "sync" init_world) as [Hdup _].
  destruct (addMessage_duplicates "film" init_world) as [_ Hnew].
  assert (Hin : "sync" ∈ dom (w_valid_messages init_world)).
  { apply elem_of_dom. vm_compute. eauto. }
  assert (Hnin : "film" ∉ dom (w_valid_messages init_world)).
  { apply not_elem_of_dom. vm_compute. reflexivity. }
  destruct (Hdup Hin) as [Hraise (w' & Hok & _ & _ & Hsize)].
  destruct (Hnew Hnin true) as (w'' & Hok' & Hdom).
  split; [exact Hraise|]. split.
  - exists w'. split; [exact Hok|]. rewrite Hsize. vm_compute. reflexivity.
  - exists w''. split; [exact Hok'|]. rewrite Hdom. set_solver.
Defined.

(** C6: an error object has an exception exactly when it was built with
    one, and [getException] gives back what the constructor was given (the
    exception, or nothing). *)
Theorem hasException_iff (kw : HalMessageError.kwds) :
  (HalMessageError.hasException (HalMessageError.init kw) = true
   ↔ ∃ e, HalMessageError.kw_m_exception kw = Some e)
  ∧ (HalMessageError.kw_m_exception kw = None
     → HalMessageError.hasException (HalMessageError.init kw) = false)
  ∧ HalMessageError.getException (HalMessageError.init kw)
    = HalMessageError.kw_m_exception kw.
Proof.
  unfold HalMessageError.hasException, HalMessageError.getException. simpl.
  destruct (HalMessageError.kw_m_exception kw) as [e|].
  - repeat split; eauto. discriminate.
  - repeat split; try discriminate. intros [e He]. discriminate.
Qed.

Lemma hasException_iff_witness :
  HalMessageError.hasException
    (HalMessageError.init
       (HalMessageError.Kwds (Some "film") (Some "disk full") None)) = false
  ∧ HalMessageError.hasException
      (HalMessageError.init
         (HalMessageError.Kwds (Some "film") (Some "disk full")
            (Some (HalException "disk full")))) = true.
Proof.
  split.
  - apply (hasException_iff
             (HalMessageError.Kwds (Some "film") (Some "disk full") None)).
    reflexivity.
  - apply (hasException_iff
             (HalMessageError.Kwds (Some "film") (Some "disk full")
                (Some (HalException "disk full")))).
    eauto.
Defined.

(** C7: on a message, [addError e] puts [e] at the end of the errors and
    [addResponse r] puts [r] at the end of the responses; whatever the entry
    is, the call returns normally, the elements that were there stay, in
    their order, and nothing else of the message changes.  [hasErrors]
    answers true exactly when there is an error, [hasResponses] exactly when
    there is a response; neither changes anything. *)
Theorem addError_addResponse_append w self (m : HalMessage) :
  heap w !! self = Some m →
  (∀ e, ∃ m', addError self e w = (Ok tt, set_heap (<[self := m']> (heap w)) w)
              ∧ m_errors m' = m_errors m ++ [e]
              ∧ responses m' = responses m
              ∧ envelope m' = envelope m)
  ∧ (∀ r, ∃ m', addResponse self r w
                = (Ok tt, set_heap (<[self := m']> (heap w)) w)
                ∧ responses m' = responses m ++ [r]
                ∧ m_errors m' = m_errors m
                ∧ envelope m' = envelope m)
  ∧ (∃ b, hasErrors self w = (Ok b, w) ∧ (b = true ↔ m_errors m ≠ []))
  ∧ (∃ b, hasResponses self w = (Ok b, w) ∧ (b = true ↔ responses m ≠ [])).
Proof.
  intros Hm. repeat split.
  - intros e. eexists. unfold addError. rewrite (update_run _ _ _ _ Hm).
    repeat split; reflexivity.
  - intros r. eexists. unfold addResponse. rewrite (update_run _ _ _ _ Hm).
    repeat split; reflexivity.
  - eexists. unfold hasErrors.
    rewrite (bind_ok _ _ _ _ _ (attr_ok m_errors _ _ _ Hm)).
    split; [reflexivity|]. destruct (m_errors m); simpl; [|done].
    split; [discriminate|done].
  - eexists. unfold hasResponses.
    rewrite (bind_ok _ _ _ _ _ (attr_ok responses _ _ _ Hm)).
    split; [reflexivity|]. destruct (responses m); simpl; [|done].
    split; [discriminate|done].
Qed.

Lemma addError_addResponse_append_witness :
  (∃ m', addError 0%N disk_full (run [Call_HalMessage kw_parameters] init_world)
         = (Ok tt,
            set_heap
              (<[0%N := m']> (heap (run [Call_HalMessage kw_parameters] init_world)))
              (run [Call_HalMessage kw_parameters] init_world))
         ∧ m_errors m' = [disk_full])
  ∧ hasErrors 0%N (run [Call_HalMessage kw_parameters] init_world)
    = (Ok false, run [Call_HalMessage kw_parameters] init_world).
Proof.
  destruct (addError_addResponse_append
              (run [Call_HalMessage kw_parameters] init_world) 0%N
              (built kw_parameters))
    as (Herr & _ & (b & Hhas & Hb) & _).
  - vm_compute. reflexivity.
  - split.
    + destruct (Herr disk_full) as (m' & Hrun & Hm' & _).
      exists m'. split; [exact Hrun|exact Hm'].
    + destruct b; [|exact Hhas].
      destruct (proj1 Hb eq_refl). reflexivity.
Defined.

(** C8: the registry only grows.  Whatever calls are made, in whatever
    order, returning or raising, every name that was registered before is
    registered after; in particular the names the module starts with stay
    registered in every store a program can reach. *)
Theorem registry_only_grows cs w :
  dom (w_valid_messages w) ⊆ dom (w_valid_messages (run cs w))
  ∧ (∀ name, name ∈ builtin_names →
             name ∈ dom (w_valid_messages (run cs init_world))).
Proof.
  split; [apply run_registry_grows|].
  intros name Hname. apply (run_registry_grows cs init_world). simpl.
  apply builtin_names_registered, Hname.
Qed.

Lemma registry_only_grows_witness :
  "sync" ∈ dom (w_valid_messages
                  (run [Call_addMessage "film" true; Call_addMessage "film" true;
                        Call_addMessage "sync" false; Call_finalize 3%N]
                     init_world)).
Proof.
  apply (registry_only_grows
           [Call_addMessage "film" true; Call_addMessage "film" true;
            Call_addMessage "sync" false; Call_finalize 3%N] init_world).
  unfold builtin_names. set_solver.
Defined.

(** C9: at level 1 (the default) the constructor reads the module name of
    the source for the "created" event.  With no source, or with a source
    that has no module name, it raises [AttributeError]: nothing is logged
    and no message is there afterwards.  With a source that has one it
    returns the message.  [getSourceName] reads the same attribute: it raises
    [AttributeError] on a message whose source gives no module name, and
    returns the name otherwise. *)
Theorem module_name_precondition kw w :
  default 1 (kw_level kw) = 1 →
  match source_name (kw_source kw) with
  | None =>
      ∃ w', HalMessage_new kw w = (Raise (AttributeError "module_name"), w')
            ∧ trace w' = trace w
            ∧ heap w' !! next_id w = None
  | Some _ => ∃ w', HalMessage_new kw w = (Ok (next_id w), w')
  end
  ∧ ∀ self (m : HalMessage),
      heap w !! self = Some m →
      getSourceName self w =
        match source_name (source m) with
        | None => (Raise (AttributeError "module_name"), w)
        | Some name => (Ok name, w)
        end.
Proof.
  intros Hl. split.
  - rewrite HalMessage_new_run. cbv zeta.
    assert ((level (built kw) =? 1) = true) as -> by (apply Z.eqb_eq, Hl).
    destruct (source_name (kw_source kw)); [eauto|].
    eexists. split; [reflexivity|]. simpl. split; [reflexivity|].
    apply lookup_delete_eq.
  - intros self m Hm. unfold getSourceName.
    rewrite (bind_ok _ _ _ _ _ (attr_ok source _ _ _ Hm)).
    destruct (source_name (source m)) eqn:Hn.
    + apply get_module_name_ok, Hn.
    + apply get_module_name_raise, Hn.
Qed.

Lemma module_name_precondition_witness :
  (∃ w', HalMessage_new kw_no_source (run [Call_HalMessage kw_level2] init_world)
         = (Raise (AttributeError "module_name"), w')
         ∧ trace w' = [])
  ∧ getSourceName 0%N (run [Call_HalMessage kw_level2] init_world)
    = (Raise (AttributeError "module_name"),
       run [Call_HalMessage kw_level2] init_world).
Proof.
  destruct (module_name_precondition kw_no_source
              (run [Call_HalMessage kw_level2] init_world))
    as [(w' & Hnew & Htrace & _) Hget].
  - reflexivity.
  - split.
    + exists w'. split; [exact Hnew|exact Htrace].
    + apply (Hget 0%N (built kw_level2)). vm_compute. reflexivity.
Defined.

(** C10: [finalize] leaves every message as it is, the one it is called on
    among them: type, source, payload, level, synchronous flag, errors,
    responses, reference count and the stored callback are after the call
    what they were before.  The registry is untouched as well.  What the
    call does is seen in the trace only: the "destroyed" event of the
    message and the call of its callback. *)
Theorem finalize_frame self w :
  heap (snd (finalize self w)) = heap w
  ∧ w_valid_messages (snd (finalize self w)) = w_valid_messages w
  ∧ next_id (snd (finalize self w)) = next_id w
  ∧ (∀ m, heap w !! self = Some m → heap (snd (finalize self w)) !! self = Some m)
  ∧ ∃ evs, trace (snd (finalize self w)) = trace w ++ evs
           ∧ ∀ e, e ∈ evs →
                  ∃ m : HalMessage,
                    heap w !! self = Some m
                    ∧ ((∃ name, e = lifecycle_event "destroyed" self name m)
                       ∨ (∃ f, finalizer m = Some f ∧ e = Invoke f [])).
Proof.
  assert (Hheap : heap (snd (finalize self w)) = heap w)
    by (apply keeps_finalize; auto with keeps).
  split; [exact Hheap|].
  split; [apply keeps_finalize; auto with keeps|].
  split; [apply keeps_finalize; auto with keeps|].
  split; [intros m Hm; rewrite Hheap; exact Hm|].
  destruct (heap w !! self) as [m|] eqn:Hm.
  - assert (Hcb : ∀ e, e ∈ callback_events m →
                       ∃ f, finalizer m = Some f ∧ e = Invoke f []).
    { unfold callback_events. destruct (finalizer m) as [f|]; intros e He.
      - apply list_elem_of_singleton in He. eauto.
      - by apply not_elem_of_nil in He. }
    rewrite (finalize_run _ _ _ Hm).
    destruct (level m =? 1).
    + destruct (source_name (source m)) as [n|]; simpl.
      * eexists. split; [reflexivity|]. intros e He. exists m. split; [done|].
        apply elem_of_cons in He as [->|He]; [left; eauto|right; auto].
      * exists []. rewrite app_nil_r. split; [done|].
        intros e He. by apply not_elem_of_nil in He.
    + simpl. eexists. split; [reflexivity|]. intros e He. exists m. auto.
  - rewrite (finalize_missing _ _ Hm). simpl.
    exists []. rewrite app_nil_r. split; [done|].
    intros e He. by apply not_elem_of_nil in He.
Qed.

Lemma finalize_frame_witness :
  heap (snd (finalize 0%N (run [Call_HalMessage kw_parameters] init_world)))
    !! 0%N
  = Some (built kw_parameters).
Proof.
  apply (finalize_frame 0%N (run [Call_HalMessage kw_parameters] init_world)).
  vm_compute. reflexivity.
Defined.

(** C4, as stated, fails: the constructor asks for neither a type nor a
    source.  With both left out and level 2 it returns a message whose type
    is the empty string and whose source is [None]; and at level 1 with no
    source it logs nothing, and raises. *)
Lemma HalMessage_without_type_and_source :
  kw_m_type kw_level2 = None ∧ kw_source kw_level2 = None
  ∧ (∃ w', HalMessage_new kw_level2 init_world = (Ok 0%N, w')
           ∧ heap w' !! 0%N
             = Some {| base := {| m_type := ""; source := None |};
                       data := None; finalizer := None; level := 2;
                       m_errors := []; responses := []; sync := false;
                       ref_count := 0 |}
           ∧ trace w' = [])
  ∧ default 1 (kw_level kw_no_source) = 1
  ∧ (∃ w', HalMessage_new kw_no_source init_world
           = (Raise (AttributeError "module_name"), w')
           ∧ trace w' = []).
Proof.
  split; [reflexivity|]. split; [reflexivity|]. split; [|split].
  - eexists. split; [vm_compute; reflexivity|]. split; reflexivity.
  - reflexivity.
  - eexists. split; [vm_compute; reflexivity|]. reflexivity.
Qed.

(** C4, amended: every keyword of the constructor may be left out; the type
    is then the empty string, the source [None], the payload [None], the
    synchronous flag false, the level 1 and the callback [None].  Errors and
    responses start empty and the reference count at 0.  When the level is
    not 1, or the source has a module name, the constructor returns the
    message, and it logs the "created" event of the message exactly when the
    level is 1. *)
Theorem HalMessage_construction kw w :
  (default 1 (kw_level kw) = 1 → is_Some (source_name (kw_source kw))) →
  ∃ (m : HalMessage) w',
    HalMessage_new kw w = (Ok (next_id w), w')
    ∧ heap w' = <[next_id w := m]> (heap w)
    ∧ m_type m = default "" (kw_m_type kw)
    ∧ source m = kw_source kw
    ∧ data m = kw_data kw
    ∧ sync m = default false (kw_sync kw)
    ∧ level m = default 1 (kw_level kw)
    ∧ finalizer m = kw_finalizer kw
    ∧ m_errors m = [] ∧ responses m = [] ∧ ref_count m = 0
    ∧ (level m = 1 →
       ∃ name, source_name (source m) = Some name
               ∧ trace w' = trace w ++ [lifecycle_event "created" (next_id w) name m])
    ∧ (level m ≠ 1 → trace w' = trace w).
Proof.
  intros Hsrc. exists (built kw). rewrite HalMessage_new_run. cbv zeta.
  destruct (level (built kw) =? 1) eqn:Hl.
  - apply Z.eqb_eq in Hl. destruct (Hsrc Hl) as [n Hn]. rewrite Hn.
    eexists. split; [reflexivity|]. simpl. repeat split; try reflexivity.
    + intros _. exists n. split; [exact Hn|reflexivity].
    + intros Hne. contradiction.
  - apply Z.eqb_neq in Hl.
    eexists. split; [reflexivity|]. simpl. repeat split; try reflexivity.
    intros He. contradiction.
Qed.

Lemma HalMessage_construction_witness :
  ∃ (m : HalMessage) w',
    HalMessage_new kw_source_only init_world = (Ok 0%N, w')
    ∧ heap w' !! 0%N = Some m
    ∧ m_type m = "" ∧ data m = None ∧ sync m = false ∧ level m = 1
    ∧ finalizer m = None
    ∧ trace w' = [LogText "created,0,film,"].
Proof.
  destruct (HalMessage_construction kw_source_only init_world)
    as (m & w' & Hnew & Hheap & Hty & Hsrc & Hdata & Hsync & Hlvl & Hfin
        & _ & _ & _ & Hlog & _).
  - intros _. simpl. eauto.
  - exists m, w'. split; [exact Hnew|]. split.
    + rewrite Hheap. apply lookup_insert_eq.
    + repeat split; try assumption.
      destruct (Hlog Hlvl) as (name & Hname & ->).
      rewrite Hsrc in Hname. injection Hname as <-.
      unfold lifecycle_event. rewrite Hty. reflexivity.
Defined.

(** C5, as stated, fails: [SyncMessage] does not produce a message for
    every source.  With [None], and with an object that has no module name,
    it raises and leaves no message. *)
Lemma SyncMessage_without_module_name :
  (∃ w', SyncMessage_new None init_world
         = (Raise (AttributeError "module_name"), w')
         ∧ heap w' = ∅)
  ∧ (∃ w', SyncMessage_new (Some (PyObject None)) init_world
           = (Raise (AttributeError "module_name"), w')
           ∧ heap w' = ∅).
Proof.
  split; eexists; (split; [vm_compute; reflexivity|]); reflexivity.
Qed.

(** C5, amended: for every source that has a module name, [SyncMessage]
    returns a message of type "sync" with the synchronous flag set, that
    source, no payload, no callback and level 1 (so its "created" event is
    logged); errors and responses are empty. *)
Theorem SyncMessage_construction src name w :
  module_name src = Some name →
  ∃ w',
    SyncMessage_new (Some src) w = (Ok (next_id w), w')
    ∧ heap w'
      = <[next_id w :=
            {| base := {| m_type := "sync"; source := Some src |};
               data := None; finalizer := None; level := 1;
               m_errors := []; responses := []; sync := true;
               ref_count := 0 |}]> (heap w)
    ∧ trace w'
      = trace w
        ++ [LogText (join "," ["created"; pretty (next_id w); name; "sync"])].
Proof.
  intros Hname. rewrite SyncMessage_new_eq, HalMessage_new_run. cbv zeta.
  simpl. rewrite Hname. eexists. split; [reflexivity|]. split; reflexivity.
Qed.

Lemma SyncMessage_construction_witness :
  ∃ w', SyncMessage_new (Some film) init_world = (Ok 0%N, w')
        ∧ trace w' = [LogText "created,0,film,sync"].
Proof.
  destruct (SyncMessage_construction film "film" init_world)
    as (w' & Hnew & _ & Htrace).
  - reflexivity.
  - exists w'. split; [exact Hnew|exact Htrace].
Defined.

(** ** Live messages over a run *)

Lemma evolves_refl m : evolves m m.
Proof.
  repeat split; try reflexivity; exists []; symmetry; apply app_nil_r.
Qed.

Lemma evolves_trans m1 m2 m3 : evolves m1 m2 → evolves m2 m3 → evolves m1 m3.
Proof.
  intros (Hb & Hd & Hf & Hl & Hs & [es He] & [rs Hr])
         (Hb' & Hd' & Hf' & Hl' & Hs' & [es' He'] & [rs' Hr']).
  repeat split; try congruence.
  - exists (es ++ es'). rewrite He', He, app_assoc. reflexivity.
  - exists (rs ++ rs'). rewrite Hr', Hr, app_assoc. reflexivity.
Qed.

Lemma update_world self f w :
  snd (update self f w) =
    match heap w !! self with
    | Some m => set_heap (<[self := f m]> (heap w)) w
    | None => w
    end.
Proof. unfold update, bind, deref, store. destruct (heap w !! self); reflexivity. Qed.

Lemma HalMessage_new_world kw w :
  next_id (snd (HalMessage_new kw w)) = N.succ (next_id w)
  ∧ (heap (snd (HalMessage_new kw w)) = <[next_id w := built kw]> (heap w)
     ∨ heap (snd (HalMessage_new kw w)) = delete (next_id w) (heap w)).
Proof.
  rewrite HalMessage_new_run. cbv zeta.
  destruct (level (built kw) =? 1); [|simpl; auto].
  destruct (source_name (kw_source kw)); simpl; auto.
Qed.

Lemma fresh_ok_same w w' :
  heap w' = heap w → next_id w' = next_id w → fresh_ok w → fresh_ok w'.
Proof. unfold fresh_ok. intros -> ->. auto. Qed.

Lemma fresh_ok_HalMessage_new kw w :
  fresh_ok w → fresh_ok (snd (HalMessage_new kw w)).
Proof.
  intros Hw a. destruct (HalMessage_new_world kw w) as [-> [-> | ->]].
  - rewrite lookup_insert. case_decide as Ha.
    + intros _. subst a. lia.
    + intros Hlive. specialize (Hw a Hlive). lia.
  - rewrite lookup_delete. case_decide as Ha.
    + intros [? [=]].
    + intros Hlive. specialize (Hw a Hlive). lia.
Qed.

Lemma fresh_ok_update self f w : fresh_ok w → fresh_ok (snd (update self f w)).
Proof.
  intros Hw. rewrite update_world.
  destruct (heap w !! self) as [m|] eqn:Hm; [|exact Hw].
  intros a. simpl. rewrite lookup_insert. case_decide as Ha.
  - intros _. subst a. apply Hw. eauto.
  - apply Hw.
Qed.

Lemma addMessage_heap name check_exists w :
  heap (snd (addMessage name check_exists w)) = heap w
  ∧ next_id (snd (addMessage name check_exists w)) = next_id w
  ∧ trace (snd (addMessage name check_exists w)) = trace w.
Proof. unfold addMessage. destruct (_ && _); simpl; auto. Qed.

Lemma fresh_ok_exec c w : fresh_ok w → fresh_ok (exec c w).
Proof.
  intros Hw. destruct c; simpl.
  - destruct (addMessage_heap name check_exists w) as (Hh & Hn & _).
    exact (fresh_ok_same _ _ Hh Hn Hw).
  - apply fresh_ok_HalMessage_new, Hw.
  - rewrite SyncMessage_new_eq. apply fresh_ok_HalMessage_new, Hw.
  - apply fresh_ok_update, Hw.
  - apply fresh_ok_update, Hw.
  - apply (fresh_ok_same w); [| |exact Hw]; apply keeps_finalize; auto with keeps.
  - apply (fresh_ok_same w); [| |exact Hw]; apply keeps_getSourceName.
  - apply (fresh_ok_same w); [| |exact Hw]; apply keeps_hasErrors.
  - apply (fresh_ok_same w); [| |exact Hw]; apply keeps_hasResponses.
  - apply fresh_ok_update, Hw.
Qed.

Lemma fresh_ok_run cs w : fresh_ok w → fresh_ok (run cs w).
Proof.
  revert w. induction cs as [|c cs IH]; intros w Hw; simpl; [exact Hw|].
  apply IH, fresh_ok_exec, Hw.
Qed.

Lemma reachable_fresh_ok w : reachable w → fresh_ok w.
Proof.
  intros [cs ->]. apply fresh_ok_run. intros a. simpl.
  rewrite lookup_empty. intros [? [=]].
Qed.

Lemma reachable_run cs w : reachable w → reachable (run cs w).
Proof. intros [cs0 ->]. exists (cs0 ++ cs). symmetry. apply run_app. Qed.

(** One call, seen from a live message. *)
Lemma update_evolves self f w a (m : HalMessage) :
  (∀ m0, evolves m0 (f m0)) →
  heap w !! a = Some m →
  ∃ m', heap (snd (update self f w)) !! a = Some m' ∧ evolves m m'
        ∧ ((∀ m0, ref_count (f m0) = ref_count m0) → ref_count m' = ref_count m).
Proof.
  intros Hf Hm. rewrite update_world.
  destruct (heap w !! self) as [m0|] eqn:Hself.
  - simpl. rewrite lookup_insert. case_decide as Ha.
    + subst a. rewrite Hself in Hm. injection Hm as ->.
      exists (f m). split; [reflexivity|]. split; [apply Hf|]. auto.
    + exists m. split; [exact Hm|]. split; [apply evolves_refl|]. auto.
  - exists m. split; [exact Hm|]. split; [apply evolves_refl|]. auto.
Qed.

Lemma exec_evolves c w a (m : HalMessage) :
  fresh_ok w →
  heap w !! a = Some m →
  ∃ m', heap (exec c w) !! a = Some m' ∧ evolves m m'
        ∧ (counts c = false → ref_count m' = ref_count m).
Proof.
  intros Hw Hm.
  assert (Hsame : ∀ w', heap w' = heap w →
            ∃ m', heap w' !! a = Some m' ∧ evolves m m'
                  ∧ (counts c = false → ref_count m' = ref_count m)).
  { intros w' ->. exists m. split; [exact Hm|]. split; [apply evolves_refl|]. auto. }
  assert (Hnew : ∀ kw,
            ∃ m', heap (snd (HalMessage_new kw w)) !! a = Some m' ∧ evolves m m'
                  ∧ (counts c = false → ref_count m' = ref_count m)).
  { intros kw. assert (Ha : a ≠ next_id w).
    { intros ->. assert (next_id w < next_id w)%N by (apply Hw; eauto). lia. }
    exists m. split; [|split; [apply evolves_refl|auto]].
    destruct (HalMessage_new_world kw w) as [_ [-> | ->]].
    - rewrite lookup_insert_ne by congruence. exact Hm.
    - rewrite lookup_delete_ne by congruence. exact Hm. }
  destruct c; simpl.
  - apply Hsame, addMessage_heap.
  - apply Hnew.
  - rewrite SyncMessage_new_eq. apply Hnew.
  - destruct (update_evolves self
                (λ m, {| base := base m; data := data m; finalizer := finalizer m;
                         level := level m; m_errors := m_errors m ++ [e];
                         responses := responses m; sync := sync m;
                         ref_count := ref_count m |}) w a m)
      as (m' & Hm' & Hev & Hrc); [|exact Hm|].
    + intros m0. repeat split; simpl; eauto. exists []. symmetry. apply app_nil_r.
    + exists m'. split; [exact Hm'|]. split; [exact Hev|]. intros _. apply Hrc. reflexivity.
  - destruct (update_evolves self
                (λ m, {| base := base m; data := data m; finalizer := finalizer m;
                         level := level m; m_errors := m_errors m;
                         responses := responses m ++ [r]; sync := sync m;
                         ref_count := ref_count m |}) w a m)
      as (m' & Hm' & Hev & Hrc); [|exact Hm|].
    + intros m0. repeat split; simpl; eauto. exists []. symmetry. apply app_nil_r.
    + exists m'. split; [exact Hm'|]. split; [exact Hev|]. intros _. apply Hrc. reflexivity.
  - apply Hsame. apply keeps_finalize. auto with keeps.
  - apply Hsame. apply keeps_getSourceName.
  - apply Hsame. apply keeps_hasErrors.
  - apply Hsame. apply keeps_hasResponses.
  - destruct (update_evolves self
                (λ m, {| base := base m; data := data m; finalizer := finalizer m;
                         level := level m; m_errors := m_errors m;
                         responses := responses m; sync := sync m;
                         ref_count := z |}) w a m)
      as (m' & Hm' & Hev & _); [|exact Hm|].
    + intros m0. repeat split; simpl; exists []; symmetry; apply app_nil_r.
    + exists m'. split; [exact Hm'|]. split; [exact Hev|]. intros [=].
Qed.

Lemma run_evolves cs w a (m : HalMessage) :
  fresh_ok w →
  heap w !! a = Some m →
  ∃ m', heap (run cs w) !! a = Some m' ∧ evolves m m'
        ∧ (Forall (λ c, counts c = false) cs → ref_count m' = ref_count m).
Proof.
  revert w m. induction cs as [|c cs IH]; intros w m Hw Hm; simpl.
  - exists m. split; [exact Hm|]. split; [apply evolves_refl|]. auto.
  - destruct (exec_evolves c w a m Hw Hm) as (m1 & Hm1 & Hev1 & Hrc1).
    destruct (IH (exec c w) m1 (fresh_ok_exec c w Hw) Hm1) as (m2 & Hm2 & Hev2 & Hrc2).
    exists m2. split; [exact Hm2|]. split; [exact (evolves_trans _ _ _ Hev1 Hev2)|].
    intros Hall. apply Forall_cons in Hall as [Hc Hcs].
    rewrite (Hrc2 Hcs). apply Hrc1, Hc.
Qed.

Lemma HalMessage_new_ok kw w self w1 :
  HalMessage_new kw w = (Ok self, w1) →
  self = next_id w
  ∧ w1 = snd (HalMessage_new kw w)
  ∧ heap w1 !! self = Some (built kw)
  ∧ loggable (built kw).
Proof.
  intros Hnew. split; [|split; [by rewrite Hnew|]].
  - revert Hnew. rewrite HalMessage_new_run. cbv zeta.
    destruct (level (built kw) =? 1); [|by intros [= <- _]].
    destruct (source_name (kw_source kw)); [by intros [= <- _]|discriminate].
  - revert Hnew. rewrite HalMessage_new_run. cbv zeta.
    destruct (level (built kw) =? 1) eqn:Hl.
    + destruct (source_name (kw_source kw)) as [n|] eqn:Hn; [|discriminate].
      intros [= <- <-]. simpl. split; [apply lookup_insert_eq|].
      apply loggable_built. right. rewrite Hn. eauto.
    + intros [= <- <-]. simpl. split; [apply lookup_insert_eq|].
      apply loggable_built. left. apply Z.eqb_neq, Hl.
Qed.

Lemma finalize_ok self w (m : HalMessage) :
  heap w !! self = Some m →
  loggable m →
  finalize self w = (Ok tt, with_trace w (trace w ++ finalize_events self m)).
Proof.
  intros Hm Hlog. rewrite (finalize_run _ _ _ Hm). unfold finalize_events.
  destruct (level m =? 1) eqn:Hl; [|reflexivity].
  apply Z.eqb_eq in Hl. destruct (Hlog Hl) as [n ->]. reflexivity.
Qed.

Lemma loggable_evolves m m' : evolves m m' → loggable m → loggable m'.
Proof. intros (Hb & _ & _ & Hl & _) Hlog. unfold loggable. rewrite Hb, Hl. exact Hlog. Qed.

Lemma finalize_events_evolves self m m' :
  evolves m m' → finalize_events self m' = finalize_events self m.
Proof.
  intros (Hb & _ & Hf & Hl & _).
  unfold finalize_events, callback_events, lifecycle_event. rewrite Hb, Hf, Hl.
  reflexivity.
Qed.

Lemma exec_trace c w :
  ∃ evs, trace (exec c w) = trace w ++ evs ∧ (lifecycle c = false → evs = []).
Proof.
  assert (Hsame : ∀ w', trace w' = trace w →
            ∃ evs, trace w' = trace w ++ evs ∧ (lifecycle c = false → evs = [])).
  { intros w' ->. exists []. split; [symmetry; apply app_nil_r|auto]. }
  assert (Hnew : ∀ kw, ∃ evs, trace (snd (HalMessage_new kw w)) = trace w ++ evs).
  { intros kw. rewrite HalMessage_new_run. cbv zeta.
    destruct (level (built kw) =? 1); [|exists []; symmetry; apply app_nil_r].
    destruct (source_name (kw_source kw)); simpl; [eauto|].
    exists []. symmetry. apply app_nil_r. }
  destruct c as [name check_exists|kw|source0|self e|self r|self|self|self|self
                |self z]; simpl.
  - apply Hsame, addMessage_heap.
  - destruct (Hnew kw) as [evs ->]. exists evs. split; [reflexivity|discriminate].
  - rewrite SyncMessage_new_eq. destruct (Hnew (sync_kwds source0)) as [evs ->].
    exists evs. split; [reflexivity|discriminate].
  - apply Hsame. apply keeps_update. auto with keeps.
  - apply Hsame. apply keeps_update. auto with keeps.
  - destruct (heap w !! self) as [m|] eqn:Hm.
    + rewrite (finalize_run _ _ _ Hm).
      destruct (level m =? 1); [destruct (source_name (source m))|]; simpl.
      * eexists. split; [reflexivity|discriminate].
      * exists []. split; [symmetry; apply app_nil_r|discriminate].
      * eexists. split; [reflexivity|discriminate].
    + rewrite (finalize_missing _ _ Hm). simpl.
      exists []. split; [symmetry; apply app_nil_r|discriminate].
  - apply Hsame. apply keeps_getSourceName.
  - apply Hsame. apply keeps_hasErrors.
  - apply Hsame. apply keeps_hasResponses.
  - apply Hsame. apply keeps_update. auto with keeps.
Qed.

(** ** Further properties *)

(** X1: what the constructor was given is what the getters give back.  On
    a message just built, [getType], [getSource] and [getData] return the
    type (the empty string when none was given), the source and the payload
    of the call; [getErrors] and [getResponses] return empty sequences and
    [hasErrors], [hasResponses] answer false; none of them changes the
    store. *)
Theorem getters_after_construction kw w self w1 :
  HalMessage_new kw w = (Ok self, w1) →
  getType self w1 = (Ok (default "" (kw_m_type kw)), w1)
  ∧ getSource self w1 = (Ok (kw_source kw), w1)
  ∧ getData self w1 = (Ok (kw_data kw), w1)
  ∧ getErrors self w1 = (Ok [], w1)
  ∧ getResponses self w1 = (Ok [], w1)
  ∧ hasErrors self w1 = (Ok false, w1)
  ∧ hasResponses self w1 = (Ok false, w1).
Proof.
  intros Hnew. destruct (HalMessage_new_ok _ _ _ _ Hnew) as (_ & _ & Hm & _).
  unfold getType, getSource, getData, getErrors, getResponses, hasErrors,
    hasResponses.
  rewrite (attr_ok m_type _ _ _ Hm), (attr_ok source _ _ _ Hm),
    (attr_ok data _ _ _ Hm), (attr_ok m_errors _ _ _ Hm),
    (attr_ok responses _ _ _ Hm).
  rewrite (bind_ok _ _ _ _ _ (attr_ok m_errors _ _ _ Hm)),
    (bind_ok _ _ _ _ _ (attr_ok responses _ _ _ Hm)).
  repeat split; reflexivity.
Qed.

Lemma getters_after_construction_witness :
  ∃ w1, HalMessage_new kw_parameters init_world = (Ok 0%N, w1)
        ∧ getType 0%N w1 = (Ok "new parameters file", w1)
        ∧ getData 0%N w1 = (Ok (Some (PyRef 7)), w1)
        ∧ hasResponses 0%N w1 = (Ok false, w1).
Proof.
  exists (snd (HalMessage_new kw_parameters init_world)).
  assert (Hnew : HalMessage_new kw_parameters init_world
                 = (Ok 0%N, snd (HalMessage_new kw_parameters init_world)))
    by (vm_compute; reflexivity).
  destruct (getters_after_construction _ _ _ _ Hnew)
    as (Hty & _ & Hdata & _ & _ & _ & Hresp).
  split; [exact Hnew|]. split; [exact Hty|]. split; [exact Hdata|exact Hresp].
Defined.

(** X2: outcomes accumulate in the order of the calls.  When recipients
    attach errors and responses to a live message, in any interleaving,
    [getErrors] returns the errors that were there followed by the attached
    errors in call order, and [getResponses] likewise for the responses:
    nothing is lost, repeated or moved to the other sequence. *)
Theorem outcomes_accumulate self os w (m : HalMessage) :
  heap w !! self = Some m →
  getErrors self (run (map (attach self) os) w)
  = (Ok (m_errors m ++ errors_of os), run (map (attach self) os) w)
  ∧ getResponses self (run (map (attach self) os) w)
    = (Ok (responses m ++ responses_of os), run (map (attach self) os) w).
Proof.
  revert w m. induction os as [|o os IH]; intros w m Hm.
  - simpl. unfold getErrors, getResponses.
    rewrite (attr_ok m_errors _ _ _ Hm), (attr_ok responses _ _ _ Hm).
    rewrite !app_nil_r. split; reflexivity.
  - destruct o as [e|r]; simpl.
    + unfold addError. rewrite (update_run _ _ _ _ Hm). simpl.
      match goal with |- context [run _ ?w1] =>
        destruct (IH w1 _ (lookup_insert_eq _ _ _)) as [He Hr] end.
      rewrite He, Hr. simpl. rewrite <- app_assoc. split; reflexivity.
    + unfold addResponse. rewrite (update_run _ _ _ _ Hm). simpl.
      match goal with |- context [run _ ?w1] =>
        destruct (IH w1 _ (lookup_insert_eq _ _ _)) as [He Hr] end.
      rewrite He, Hr. simpl. rewrite <- app_assoc. split; reflexivity.
Qed.

Lemma outcomes_accumulate_witness :
  ∃ w', getErrors 0%N w' = (Ok [disk_full], w')
        ∧ getResponses 0%N w' = (Ok [focus_locked; stage_moved], w').
Proof.
  eexists.
  apply (outcomes_accumulate 0%N [inr focus_locked; inl disk_full; inr stage_moved]
           (run [Call_HalMessage kw_parameters] init_world) (built kw_parameters)).
  vm_compute. reflexivity.
Defined.



(** X4: a message stays what it was built as.  Whatever calls are made
    after a message is live (registrations, other constructions, outcomes,
    [finalize], assignments of the reference count), the message is still
    there and its type, source, payload, level, synchronous flag and
    callback have not changed. *)
Theorem message_fields_immutable cs w a (m : HalMessage) :
  reachable w →
  heap w !! a = Some m →
  ∃ m' : HalMessage,
    heap (run cs w) !! a = Some m'
    ∧ m_type m' = m_type m ∧ source m' = source m ∧ data m' = data m
    ∧ level m' = level m ∧ sync m' = sync m ∧ finalizer m' = finalizer m.
Proof.
  intros Hw Hm.
  destruct (run_evolves cs w a m (reachable_fresh_ok _ Hw) Hm)
    as (m' & Hm' & (Hb & Hd & Hf & Hl & Hs & _) & _).
  exists m'. rewrite Hb. repeat split; assumption.
Qed.

Lemma message_fields_immutable_witness :
  ∃ m' : HalMessage,
    heap (run [Call_addError 0%N disk_full; Call_HalMessage kw_level2;
               Call_set_ref_count 0%N 3; Call_finalize 0%N]
            (run [Call_HalMessage kw_parameters] init_world)) !! 0%N = Some m'
    ∧ m_type m' = "new parameters file" ∧ level m' = 1.
Proof.
  destruct (message_fields_immutable
              [Call_addError 0%N disk_full; Call_HalMessage kw_level2;
               Call_set_ref_count 0%N 3; Call_finalize 0%N]
              (run [Call_HalMessage kw_parameters] init_world) 0%N
              (built kw_parameters))
    as (m' & Hm' & Hty & _ & _ & Hl & _).
  - exists [Call_HalMessage kw_parameters]. reflexivity.
  - vm_compute. reflexivity.
  - exists m'. split; [exact Hm'|]. split; [exact Hty|exact Hl].
Defined.

(** X5: the outcome sequences are append-only over a whole run.  Whatever
    calls are made, the errors of a live message afterwards are the errors
    it had, in the same order, followed by more; the same for the
    responses.  No call removes, replaces or reorders an outcome. *)
Theorem outcomes_append_only cs w a (m : HalMessage) :
  reachable w →
  heap w !! a = Some m →
  ∃ (m' : HalMessage) es rs,
    heap (run cs w) !! a = Some m'
    ∧ m_errors m' = m_errors m ++ es
    ∧ responses m' = responses m ++ rs.
Proof.
  intros Hw Hm.
  destruct (run_evolves cs w a m (reachable_fresh_ok _ Hw) Hm)
    as (m' & Hm' & (_ & _ & _ & _ & _ & [es He] & [rs Hr]) & _).
  exists m', es, rs. repeat split; assumption.
Qed.

Lemma outcomes_append_only_witness :
  ∃ (m' : HalMessage) es rs,
    heap (run [Call_finalize 0%N; Call_addResponse 0%N stage_moved]
            world_answered) !! 0%N = Some m'
    ∧ m_errors m' = [disk_full] ++ es
    ∧ responses m' = [focus_locked; stage_moved] ++ rs.
Proof.
  destruct (outcomes_append_only
              [Call_finalize 0%N; Call_addResponse 0%N stage_moved]
              world_answered 0%N
              {| base := {| m_type := "new parameters file"; source := Some film |};
                 data := Some (PyRef 7); finalizer := Some (Callable "done");
                 level := 1; m_errors := [disk_full];
                 responses := [focus_locked; stage_moved]; sync := false;
                 ref_count := 0 |})
    as (m' & es & rs & Hm' & He & Hr).
  - eexists. reflexivity.
  - vm_compute. reflexivity.
  - exists m', es, rs. split; [exact Hm'|]. split; [exact He|exact Hr].
Defined.

(** X6: the class never counts references itself.  The constructor sets
    the reference count to 0, and no function of the module changes it:
    after any calls among which there is no assignment of the attribute, a
    message that was built still has reference count 0. *)
Theorem ref_count_only_assigned cs kw w self w1 :
  reachable w →
  HalMessage_new kw w = (Ok self, w1) →
  Forall (λ c, counts c = false) cs →
  ∃ m' : HalMessage, heap (run cs w1) !! self = Some m' ∧ ref_count m' = 0.
Proof.
  intros Hw Hnew Hcs.
  destruct (HalMessage_new_ok _ _ _ _ Hnew) as (_ & -> & Hm & _).
  destruct (run_evolves cs _ self (built kw)
              (fresh_ok_HalMessage_new kw w (reachable_fresh_ok _ Hw)) Hm)
    as (m' & Hm' & _ & Hrc).
  exists m'. split; [exact Hm'|]. rewrite (Hrc Hcs). reflexivity.
Qed.

Lemma ref_count_only_assigned_witness :
  ∃ m' : HalMessage,
    heap (run [Call_addError 0%N disk_full; Call_finalize 0%N;
               Call_SyncMessage (Some film)]
            (snd (HalMessage_new kw_parameters init_world))) !! 0%N = Some m'
    ∧ ref_count m' = 0.
Proof.
  apply (ref_count_only_assigned
           [Call_addError 0%N disk_full; Call_finalize 0%N;
            Call_SyncMessage (Some film)]
           kw_parameters init_world 0%N).
  - exists []. reflexivity.
  - vm_compute. reflexivity.
  - repeat constructor.
Defined.

(** ** The registry over a run *)

Lemma all_true_insert name vm : all_true vm → all_true (<[name := true]> vm).
Proof.
  intros Hvm n v. rewrite lookup_insert. case_decide; [by intros [= <-]|apply Hvm].
Qed.

Lemma all_true_valid_messages : all_true valid_messages.
Proof.
  unfold valid_messages. repeat apply all_true_insert.
  intros n v. rewrite lookup_empty. discriminate.
Qed.

Lemma all_true_run cs w :
  all_true (w_valid_messages w) → all_true (w_valid_messages (run cs w)).
Proof.
  revert w. induction cs as [|c cs IH]; intros w Hw; simpl; [exact Hw|].
  apply IH. destruct (exec_registry c w) as [->|[name ->]]; [exact Hw|].
  apply all_true_insert, Hw.
Qed.

Lemma addMessage_strict_raises name w :
  name ∈ dom (w_valid_messages w) →
  addMessage name true w
  = (Raise (HalException ("Message " +:+ name +:+ " already exists!")), w).
Proof.
  intros [v Hv]%elem_of_dom. unfold addMessage, contains. rewrite Hv. reflexivity.
Qed.

Lemma addMessage_ok_registered name check_exists w w' :
  addMessage name check_exists w = (Ok tt, w') →
  name ∈ dom (w_valid_messages w').
Proof.
  unfold addMessage. destruct (_ && _); [discriminate|].
  intros [= <-]. simpl. rewrite dom_insert_L. set_solver.
Qed.

(** X7: registering again without the check changes nothing at all.  In
    every store a program can reach, each registered name is registered
    with [True]; so [addMessage name False] on a registered name returns and
    leaves the whole store, the registry included, exactly as it was. *)
Theorem nonstrict_reregistration_noop name w :
  reachable w →
  name ∈ dom (w_valid_messages w) →
  all_true (w_valid_messages w) ∧ addMessage name false w = (Ok tt, w).
Proof.
  intros [cs ->] Hin.
  assert (Htrue : all_true (w_valid_messages (run cs init_world)))
    by apply all_true_run, all_true_valid_messages.
  split; [exact Htrue|].
  apply elem_of_dom in Hin as [v Hv]. rewrite (Htrue _ _ Hv) in Hv.
  unfold addMessage, set_valid_messages. simpl.
  rewrite (insert_id _ _ _ Hv). destruct (run cs init_world). reflexivity.
Qed.

Lemma nonstrict_reregistration_noop_witness :
  addMessage "film" false (run [Call_addMessage "film" true] init_world)
  = (Ok tt, run [Call_addMessage "film" true] init_world).
Proof.
  apply (nonstrict_reregistration_noop "film"
           (run [Call_addMessage "film" true] init_world)).
  - eexists. reflexivity.
  - apply elem_of_dom. vm_compute. eauto.
Defined.

(** X8: a name can be registered with the check only once.  After any
    [addMessage] of a name has returned, and whatever calls follow, a second
    [addMessage] of it with the check raises [HalException] with the message
    "Message <name> already exists!" and leaves the store as it is. *)
Theorem strict_registration_once name check_exists w w' cs :
  addMessage name check_exists w = (Ok tt, w') →
  addMessage name true (run cs w')
  = (Raise (HalException ("Message " +:+ name +:+ " already exists!")),
     run cs w').
Proof.
  intros Hok. apply addMessage_strict_raises.
  apply (run_registry_grows cs w'), (addMessage_ok_registered _ _ _ _ Hok).
Qed.

Lemma strict_registration_once_witness :
  addMessage "film" true
    (run [Call_HalMessage kw_parameters; Call_addMessage "camera" true]
       (snd (addMessage "film" true init_world)))
  = (Raise (HalException "Message film already exists!"),
     run [Call_HalMessage kw_parameters; Call_addMessage "camera" true]
       (snd (addMessage "film" true init_world))).
Proof.
  apply (strict_registration_once "film" true init_world).
  vm_compute. reflexivity.
Defined.

(** X9: registrations of different names do not depend on their order.
    For two different names, each [addMessage] returns or raises the same
    whether it runs before or after the other, and the store after both is
    the same in either order. *)
Theorem registrations_commute a ca b cb w :
  a ≠ b →
  fst (addMessage a ca (snd (addMessage b cb w))) = fst (addMessage a ca w)
  ∧ fst (addMessage b cb (snd (addMessage a ca w))) = fst (addMessage b cb w)
  ∧ snd (addMessage b cb (snd (addMessage a ca w)))
    = snd (addMessage a ca (snd (addMessage b cb w))).
Proof.
  intros Hab.
  assert (Ha : ∀ vm, contains (<[b := true]> vm) a = contains vm a).
  { intros vm. unfold contains. rewrite lookup_insert_ne by congruence. reflexivity. }
  assert (Hb : ∀ vm, contains (<[a := true]> vm) b = contains vm b).
  { intros vm. unfold contains. rewrite lookup_insert_ne by congruence. reflexivity. }
  unfold addMessage, set_valid_messages, raise.
  destruct (cb && contains (w_valid_messages w) b) eqn:Eb;
    destruct (ca && contains (w_valid_messages w) a) eqn:Ea; simpl;
    rewrite ?Ha, ?Hb, ?Ea, ?Eb; simpl; repeat split; try reflexivity.
  rewrite insert_insert_ne by congruence. reflexivity.
Qed.

Lemma registrations_commute_witness :
  snd (addMessage "film" true (snd (addMessage "sync" true init_world)))
  = snd (addMessage "sync" true (snd (addMessage "film" true init_world))).
Proof.
  apply (registrations_commute "sync" true "film" true init_world).
  discriminate.
Defined.

(** ** The life cycle *)





(** X12: the trace is only added to, and only by the life cycle.  Over any
    calls the lines logged and the callbacks called before are still there,
    in order, at the front of the trace; and when none of the calls is a
    constructor or [finalize] (registrations, outcomes, reads, assignments
    of the reference count) nothing is logged and no callback is called. *)
Theorem trace_only_lifecycle cs w :
  ∃ evs, trace (run cs w) = trace w ++ evs
         ∧ (Forall (λ c, lifecycle c = false) cs → evs = []).
Proof.
  revert w. induction cs as [|c cs IH]; intros w; simpl.
  - exists []. split; [symmetry; apply app_nil_r|auto].
  - destruct (exec_trace c w) as (evs1 & H1 & Hs1).
    destruct (IH (exec c w)) as (evs2 & H2 & Hs2).
    exists (evs1 ++ evs2). split.
    + rewrite H2, H1, app_assoc. reflexivity.
    + intros Hall. apply Forall_cons in Hall as [Hc Hcs].
      rewrite (Hs1 Hc), (Hs2 Hcs). reflexivity.
Qed.

Lemma trace_only_lifecycle_witness :
  trace (run [Call_addResponse 0%N focus_locked; Call_addMessage "film" true;
              Call_hasErrors 0%N; Call_set_ref_count 0%N 2]
           (run [Call_HalMessage kw_parameters] init_world))
  = trace (run [Call_HalMessage kw_parameters] init_world).
Proof.
  destruct (trace_only_lifecycle
              [Call_addResponse 0%N focus_locked; Call_addMessage "film" true;
               Call_hasErrors 0%N; Call_set_ref_count 0%N 2]
              (run [Call_HalMessage kw_parameters] init_world))
    as (evs & Htrace & Hsilent).
  rewrite Htrace, Hsilent; [apply app_nil_r|repeat constructor].
Defined.

(** ** Several messages *)

Lemma attach_other a b os w :
  a ≠ b → heap (run (map (attach a) os) w) !! b = heap w !! b.
Proof.
  intros Hab. revert w. induction os as [|o os IH]; intros w; simpl; [reflexivity|].
  rewrite IH. destruct o as [e|r]; simpl.
  - unfold addError. rewrite update_world.
    destruct (heap w !! a); [|reflexivity]. simpl.
    apply lookup_insert_ne. exact Hab.
  - unfold addResponse. rewrite update_world.
    destruct (heap w !! a); [|reflexivity]. simpl.
    apply lookup_insert_ne. exact Hab.
Qed.

(** X13: two messages never share their outcomes.  Each construction
    gives the message sequences of its own: for two messages built one after
    the other, the identities differ, and whatever errors and responses are
    attached to the first, [getErrors] and [getResponses] of the second
    still return empty sequences. *)
Theorem messages_do_not_share kw1 kw2 os w a w1 b w2 :
  HalMessage_new kw1 w = (Ok a, w1) →
  HalMessage_new kw2 w1 = (Ok b, w2) →
  a ≠ b
  ∧ getErrors b (run (map (attach a) os) w2)
    = (Ok [], run (map (attach a) os) w2)
  ∧ getResponses b (run (map (attach a) os) w2)
    = (Ok [], run (map (attach a) os) w2).
Proof.
  intros Hnew1 Hnew2.
  destruct (HalMessage_new_ok _ _ _ _ Hnew1) as (Ha & Hw1 & _ & _).
  destruct (HalMessage_new_ok _ _ _ _ Hnew2) as (Hb & _ & Hm2 & _).
  assert (Hab : a ≠ b).
  { rewrite Ha, Hb, Hw1.
    destruct (HalMessage_new_world kw1 w) as [-> _]. lia. }
  split; [exact Hab|].
  assert (Hm : heap (run (map (attach a) os) w2) !! b = Some (built kw2))
    by (rewrite (attach_other a b os w2 Hab); exact Hm2).
  unfold getErrors, getResponses.
  rewrite (attr_ok m_errors _ _ _ Hm), (attr_ok responses _ _ _ Hm).
  split; reflexivity.
Qed.

Lemma messages_do_not_share_witness :
  ∃ w',
    getErrors 1%N w' = (Ok [], w')
    ∧ getResponses 1%N w' = (Ok [], w').
Proof.
  eexists.
  apply (messages_do_not_share kw_parameters kw_level2
           [inl disk_full; inr focus_locked] init_world 0%N
           (snd (HalMessage_new kw_parameters init_world)) 1%N
           (snd (HalMessage_new kw_level2
                   (snd (HalMessage_new kw_parameters init_world))))).
  - vm_compute. reflexivity.
  - vm_compute. reflexivity.
Defined.

(** X14: a sync message carries nothing, for its whole life.  After
    [SyncMessage(source)] has returned and whatever calls were made since,
    the message has type "sync", the synchronous flag set, level 1, no
    payload and no callback; [finalize] on it returns normally and does
    nothing but log its "destroyed" line. *)
Theorem sync_message_life cs src w self w1 :
  reachable w →
  SyncMessage_new src w = (Ok self, w1) →
  ∃ (m' : HalMessage) name,
    heap (run cs w1) !! self = Some m'
    ∧ m_type m' = "sync" ∧ sync m' = true ∧ level m' = 1
    ∧ data m' = None ∧ finalizer m' = None
    ∧ source m' = src ∧ source_name src = Some name
    ∧ finalize self (run cs w1)
      = (Ok tt,
         with_trace (run cs w1)
           (trace (run cs w1)
            ++ [LogText (join "," ["destroyed"; pretty self; name; "sync"])])).
Proof.
  intros Hw Hnew. rewrite SyncMessage_new_eq in Hnew.
  destruct (HalMessage_new_ok _ _ _ _ Hnew) as (_ & Hw1 & Hm & Hlog).
  assert (Hfresh : fresh_ok w1).
  { rewrite Hw1. apply fresh_ok_HalMessage_new, reachable_fresh_ok, Hw. }
  destruct (run_evolves cs w1 self _ Hfresh Hm) as (m' & Hm' & Hev & _).
  destruct (Hlog eq_refl) as [name Hname]. simpl in Hname.
  exists m', name.
  rewrite (finalize_ok _ _ _ Hm' (loggable_evolves _ _ Hev Hlog)).
  rewrite (finalize_events_evolves _ _ _ Hev).
  destruct Hev as (Hb & Hd & Hf & Hl & Hs & _).
  rewrite Hb, Hd, Hf, Hl, Hs. unfold finalize_events, callback_events. simpl.
  rewrite Hname. repeat split; try reflexivity. exact Hm'.
Qed.

Lemma sync_message_life_witness :
  ∃ w2,
    finalize 1%N
      (run [Call_addResponse 1%N focus_locked; Call_finalize 0%N]
         (snd (SyncMessage_new (Some film)
                 (run [Call_HalMessage kw_parameters] init_world))))
    = (Ok tt, w2)
    ∧ last (trace w2) = Some (LogText "destroyed,1,film,sync").
Proof.
  destruct (sync_message_life
              [Call_addResponse 1%N focus_locked; Call_finalize 0%N]
              (Some film) (run [Call_HalMessage kw_parameters] init_world) 1%N
              (snd (SyncMessage_new (Some film)
                      (run [Call_HalMessage kw_parameters] init_world))))
    as (m' & name & _ & _ & _ & _ & _ & _ & _ & Hname & Hfin).
  - exists [Call_HalMessage kw_parameters]. reflexivity.
  - vm_compute. reflexivity.
  - injection Hname as <-. eexists. split; [exact Hfin|]. simpl. apply last_snoc.
Defined.
